(** * HyperAlloc's CriticalGC native shim

    A shallow embedding of [src/HyperAlloc/CriticalGC.c]: the two JNI entry
    points [Java_..._CriticalGC_acquire] and [Java_..._CriticalGC_release]
    and the file-scope variable [sink] they share.

    The shim calls the runtime through the function table behind [JNIEnv*].
    The table is a parameter of the embedding, so that what the shim does is
    stated for every runtime; a reference runtime with direct pointers is
    given afterwards for the statements about array storage. *)

From Stdlib Require Import ZArith.
From Stdlib.Strings Require Import Byte.
From stdpp Require Import gmap list.

Local Open Scope Z_scope.

(** ** JNI types ([jni.h]) *)

(** A native address; [NULL] is address zero. *)
Abbreviation address := Z (only parsing).
Definition NULL : address := 0.

(** [jobject] references ([jclass], [jbyteArray]) are opaque handles. *)
Abbreviation jclass := Z (only parsing).
Abbreviation jbyteArray := Z (only parsing).
Abbreviation jint := Z (only parsing).
Abbreviation jbyte := byte (only parsing).

Module CriticalGC.

Section with_runtime.
(** The state of the managed runtime, as seen through [JNIEnv*]. *)
Context {W : Type}.

(** The two entries of [struct JNINativeInterface_] that the shim uses.
    [env] itself, the first argument of every JNI function, is the record;
    the runtime state is threaded explicitly. *)
Record JNINativeInterface_ := {
  GetPrimitiveArrayCritical :
    jbyteArray → address → W → address * W;
  ReleasePrimitiveArrayCritical :
    jbyteArray → address → jint → W → W
}.

(** The process: [static jbyte* sink] and the runtime. *)
Record process := { sink : address; world : W }.

(** Static storage is zero-initialised: [sink] starts as the null
    pointer. *)
Definition initial (w : W) : process := {| sink := NULL; world := w |}.

(** Native code as a state transformer with a result. *)
Definition native (A : Type) : Type := process → A * process.

Definition ret {A} (a : A) : native A := λ s, (a, s).

Definition bind {A B} (k : A → native B) (m : native A) : native B :=
  λ s, let '(a, s') := m s in k a s'.

Definition load_sink : native address := λ s, (sink s, s).

Definition store_sink (p : address) : native unit :=
  λ s, (tt, {| sink := p; world := world s |}).

Definition call_GetPrimitiveArrayCritical (env : JNINativeInterface_)
    (arr : jbyteArray) (isCopy : address) : native address :=
  λ s, let '(p, w) := GetPrimitiveArrayCritical env arr isCopy (world s) in
       (p, {| sink := sink s; world := w |}).

Definition call_ReleasePrimitiveArrayCritical (env : JNINativeInterface_)
    (arr : jbyteArray) (carray : address) (mode : jint) : native unit :=
  λ s, (tt, {| sink := sink s;
               world := ReleasePrimitiveArrayCritical env arr carray mode
                          (world s) |}).
End with_runtime.

Arguments JNINativeInterface_ : clear implicits.
Arguments process : clear implicits.
Arguments native : clear implicits.

(** [native W] with stdpp's monad notation [x ← m; k]. *)
#[global] Instance native_ret {W} : MRet (native W) := @ret W.
#[global] Instance native_bind {W} : MBind (native W) := @bind W.

(** What the managed caller can do with the shim: a sequence of calls of
    the two native methods. *)
Inductive invocation :=
| Acquire (klass : jclass) (arr : jbyteArray)
| Release (klass : jclass) (arr : jbyteArray).

Section entry_points.
Context {W : Type} (env : JNINativeInterface_ W).

(** [sink = env->GetPrimitiveArrayCritical(env, arr, 0);] *)
Definition Java_com_amazon_corretto_benchmark_hyperalloc_CriticalGC_acquire
    (klass : jclass) (arr : jbyteArray) : native W unit :=
  p ← call_GetPrimitiveArrayCritical env arr 0;
  store_sink p.

(** [env->ReleasePrimitiveArrayCritical(env, arr, sink, 0);] *)
Definition Java_com_amazon_corretto_benchmark_hyperalloc_CriticalGC_release
    (klass : jclass) (arr : jbyteArray) : native W unit :=
  p ← load_sink;
  call_ReleasePrimitiveArrayCritical env arr p 0.

(** The Java names of the two native methods, [CriticalGC.acquire] and
    [CriticalGC.release]. *)
Local Abbreviation acquire :=
  Java_com_amazon_corretto_benchmark_hyperalloc_CriticalGC_acquire.
Local Abbreviation release :=
  Java_com_amazon_corretto_benchmark_hyperalloc_CriticalGC_release.

Definition invoke (c : invocation) : native W unit :=
  match c with
  | Acquire klass arr => acquire klass arr
  | Release klass arr => release klass arr
  end.

Definition exec (c : invocation) (s : process W) : process W :=
  snd (invoke c s).

Fixpoint run (cs : list invocation) (s : process W) : process W :=
  match cs with
  | [] => s
  | c :: cs' => run cs' (exec c s)
  end.

End entry_points.

Abbreviation acquire :=
  Java_com_amazon_corretto_benchmark_hyperalloc_CriticalGC_acquire.
Abbreviation release :=
  Java_com_amazon_corretto_benchmark_hyperalloc_CriticalGC_release.

Definition is_release (c : invocation) : bool :=
  match c with Release _ _ => true | Acquire _ _ => false end.

(** Balanced use by the caller: for each array in turn, one [acquire] and
    the [release] that matches it. *)
Definition cycles (klass : jclass) (hs : list jbyteArray) : list invocation :=
  hs ≫= λ h, [Acquire klass h; Release klass h].

(** *** Observing the calls into the runtime

    A runtime that also keeps the list of JNI calls it has served, oldest
    first, each with its arguments (and its result, for a pin). *)
Inductive jni_event :=
| GetCritical (arr : jbyteArray) (isCopy : address) (result : address)
| ReleaseCritical (arr : jbyteArray) (carray : address) (mode : jint).

Definition traced {W} (env : JNINativeInterface_ W)
    : JNINativeInterface_ (W * list jni_event) :=
  {| GetPrimitiveArrayCritical arr isCopy wl :=
       let '(p, w') := GetPrimitiveArrayCritical env arr isCopy wl.1 in
       (p, (w', wl.2 ++ [GetCritical arr isCopy p]));
     ReleasePrimitiveArrayCritical arr carray mode wl :=
       (ReleasePrimitiveArrayCritical env arr carray mode wl.1,
        wl.2 ++ [ReleaseCritical arr carray mode]) |}.

Definition calls {W} (s : process (W * list jni_event)) : list jni_event :=
  (world s).2.

(** The pointers handed to the unpin primitive, oldest first. *)
Definition released (log : list jni_event) : list address :=
  omap (λ e, match e with
             | ReleaseCritical _ carray _ => Some carray
             | GetCritical _ _ _ => None
             end) log.

(** The pointers the pin primitive returned, oldest first. *)
Definition obtained (log : list jni_event) : list address :=
  omap (λ e, match e with
             | GetCritical _ _ p => Some p
             | ReleaseCritical _ _ _ => None
             end) log.

End CriticalGC.

(** ** A reference runtime with direct pointers *)

Module Runtime.
Import CriticalGC.

#[global] Instance byte_eq_dec : EqDecision byte := Byte.byte_eq_dec.
#[global] Instance byte_inhabited : Inhabited byte := populate x00.

(** A managed byte array: where its backing storage lies and how many
    elements it has. *)
Record array_object := { base : address; count : nat }.

(** The runtime: the arrays behind the handles, the memory native code sees,
    the pointers handed out by the pin primitive and not yet given back (one
    entry per outstanding pin), and whether a JNI call has broken the
    contract of the interface (undefined behaviour). *)
Record JVM := {
  arrays : gmap Z array_object;
  memory : gmap Z byte;
  critical : list address;
  fault : bool
}.

Definition boot (arrs : gmap Z array_object) (mem : gmap Z byte) : JVM :=
  {| arrays := arrs; memory := mem; critical := []; fault := false |}.

Fixpoint remove_first (p : address) (l : list address) : list address :=
  match l with
  | [] => []
  | q :: l' => if decide (p = q) then l' else q :: remove_first p l'
  end.

(** Modelled from the spec: the runtime's pin primitive, which the source
    only calls through [JNIEnv*] ([jni.h]'s [GetPrimitiveArrayCritical]).
    It yields a direct pointer to the array's backing storage and records
    the pin; an invalid handle yields the null pointer.  A non-null
    [isCopy] receives [JNI_FALSE]. *)
Definition get_critical (arr : jbyteArray) (isCopy : address) (j : JVM)
    : address * JVM :=
  match arrays j !! arr with
  | None => (NULL, j)
  | Some o =>
      (base o,
       {| arrays := arrays j;
          memory := if decide (isCopy = NULL) then memory j
                    else <[isCopy := x00]> (memory j);
          critical := base o :: critical j;
          fault := fault j |})
  end.

(** Modelled from the spec: the runtime's unpin primitive
    ([ReleasePrimitiveArrayCritical]).  Given the array and the pointer of
    one of its outstanding pins it ends that pin; the storage was accessed
    in place, so there is nothing to copy back, whatever [mode] is.  Any
    other call is outside the contract and is recorded as a fault. *)
Definition release_critical (arr : jbyteArray) (carray : address)
    (mode : jint) (j : JVM) : JVM :=
  match arrays j !! arr with
  | Some o =>
      if decide (carray = base o ∧ carray ∈ critical j) then
        {| arrays := arrays j; memory := memory j;
           critical := remove_first carray (critical j);
           fault := fault j |}
      else
        {| arrays := arrays j; memory := memory j;
           critical := critical j; fault := true |}
  | None =>
      {| arrays := arrays j; memory := memory j;
         critical := critical j; fault := true |}
  end.

Definition direct_env : JNINativeInterface_ JVM :=
  {| GetPrimitiveArrayCritical := get_critical;
     ReleasePrimitiveArrayCritical := release_critical |}.

(** [n] bytes of memory from address [a] on. *)
Definition read_bytes (mem : gmap Z byte) (a : address) (n : nat)
    : list byte :=
  (λ i : nat, mem !!! (a + Z.of_nat i)) <$> seq 0 n.

(** What managed code sees in the array behind a handle. *)
Definition array_contents (j : JVM) (arr : jbyteArray)
    : option (list byte) :=
  o ← arrays j !! arr; Some (read_bytes (memory j) (base o) (count o)).

(** Modelled from the spec: the store of the scenario of its section 8,
    "writing a new byte at offset 0 through the pointer".  No code under
    [src/] makes such a store.  It is native code's [p[off] = b] on the
    memory the runtime shares with native code. *)
Definition poke (p : address) (off : Z) (b : byte) (j : JVM) : JVM :=
  {| arrays := arrays j; memory := <[p + off := b]> (memory j);
     critical := critical j; fault := fault j |}.

(** Modelled from the spec: that store made through the pointer the shim
    holds.  [sink] is private to the source file and [acquire] returns
    nothing, so no caller of the two entry points can make it; it stands for
    native code that has the pointer, as the scenario supposes. *)
Definition write_through_sink (off : Z) (b : byte) (s : process JVM)
    : process JVM :=
  {| sink := sink s; world := poke (sink s) off b (world s) |}.

(** Modelled from the spec: any number of such stores, in order, each at an
    offset counted in bytes from the pointer. *)
Definition writes_through_sink (ws : list (nat * byte)) (s : process JVM)
    : process JVM :=
  foldl (λ s' w, write_through_sink (Z.of_nat w.1) w.2 s') s ws.

(** The two states of the shim: whether the runtime holds an outstanding
    pin. *)
Inductive pin_state := Unpinned | Pinned.

Definition shim_state (s : process JVM) : pin_state :=
  match critical (world s) with
  | [] => Unpinned
  | _ :: _ => Pinned
  end.

(** The slot holds a pointer that is pinned right now. *)
Definition slot_pinned (s : process JVM) : Prop :=
  sink s ≠ NULL ∧ sink s ∈ critical (world s).

#[global] Instance slot_pinned_dec s : Decision (slot_pinned s).
Proof. unfold slot_pinned. apply _. Defined.

End Runtime.

(** ** Running the shim under observation *)

Module Observation.
Import CriticalGC.

(** Start observing with an empty log; forget the log again. *)
Definition instrument {W} (s : process W) : process (W * list jni_event) :=
  {| sink := sink s; world := (world s, []) |}.

Definition erase {W} (t : process (W * list jni_event)) : process W :=
  {| sink := sink t; world := (world t).1 |}.

(** The JNI calls a sequence of invocations makes, started in [s]. *)
Definition trace {W} (env : JNINativeInterface_ W) (cs : list invocation)
    (s : process W) : list jni_event :=
  calls (run (traced env) cs (instrument s)).

(** The JNI call that serves an invocation: the pin of the same array with
    a null [isCopy] for an [acquire], the unpin of the same array with mode
    [0] for a [release]. *)
Definition serves (c : invocation) (e : jni_event) : Prop :=
  match c, e with
  | Acquire _ arr, GetCritical arr' isCopy _ => arr' = arr ∧ isCopy = NULL
  | Release _ arr, ReleaseCritical arr' _ mode => arr' = arr ∧ mode = 0
  | _, _ => False
  end.

End Observation.

Import CriticalGC Observation Runtime.

(** ** Concrete processes *)

(** A runtime with a 16-byte array behind handle [1], stored at address
    [4096] and filled with the bytes [1, 2, ..., 16], and a 4-byte array
    behind handle [3] at address [8192]; [2] is not a valid handle. *)
Fixpoint write_bytes (a : address) (bs : list byte) (mem : gmap Z byte)
    : gmap Z byte :=
  match bs with
  | [] => mem
  | b :: bs' => <[a := b]> (write_bytes (a + 1) bs' mem)
  end.

Definition pattern16 : list byte :=
  [x01; x02; x03; x04; x05; x06; x07; x08;
   x09; x0a; x0b; x0c; x0d; x0e; x0f; x10].

Definition demo_jvm : JVM :=
  boot {[ 1 := {| base := 4096; count := 16 |};
          3 := {| base := 8192; count := 4 |} ]}
       (write_bytes 4096 pattern16 ∅).

Definition demo : process JVM := initial demo_jvm.

(** * Properties *)

(** ** The two entry points, for every runtime *)

Section shim_facts.
Context {W : Type} (env : JNINativeInterface_ W).
Implicit Types (s : process W) (t : process (W * list jni_event)).
Implicit Types (cs rs : list invocation).

Lemma exec_acquire klass arr s :
  exec env (Acquire klass arr) s =
  {| sink := (GetPrimitiveArrayCritical env arr NULL (world s)).1;
     world := (GetPrimitiveArrayCritical env arr NULL (world s)).2 |}.
Proof.
  unfold exec, invoke, acquire, mbind, native_bind, bind,
    call_GetPrimitiveArrayCritical, store_sink.
  change 0 with NULL.
  by destruct (GetPrimitiveArrayCritical env arr NULL (world s)).
Qed.

Lemma exec_release klass arr s :
  exec env (Release klass arr) s =
  {| sink := sink s;
     world := ReleasePrimitiveArrayCritical env arr (sink s) 0 (world s) |}.
Proof. reflexivity. Qed.

Lemma run_app cs1 cs2 s : run env (cs1 ++ cs2) s = run env cs2 (run env cs1 s).
Proof. revert s. induction cs1 as [|c cs1 IH]; intros s; simpl; auto. Qed.


(** Releases never write the slot. *)
Lemma run_releases_sink rs s :
  forallb is_release rs = true → sink (run env rs s) = sink s.
Proof.
  revert s. induction rs as [|[k a|k a] rs IH]; intros s Hrs; simpl in *.
  - done.
  - discriminate.
  - by rewrite IH.
Qed.
End shim_facts.

(** ** Observation does not disturb the shim *)

Section observation_facts.
Context {W : Type} (env : JNINativeInterface_ W).
Implicit Types (s : process W) (t : process (W * list jni_event)).
Implicit Types (cs rs : list invocation).

Lemma erase_instrument s : erase (instrument s) = s.
Proof. by destruct s. Qed.

Lemma trace_acquire klass arr s :
  trace env [Acquire klass arr] s =
  [GetCritical arr NULL (sink (exec env (Acquire klass arr) s))].
Proof.
  unfold trace. simpl. rewrite !exec_acquire. simpl.
  by destruct (GetPrimitiveArrayCritical env arr NULL (world s)).
Qed.

Lemma trace_release klass arr s :
  trace env [Release klass arr] s = [ReleaseCritical arr (sink s) 0].
Proof. reflexivity. Qed.

Lemma traced_exec c t :
  erase (exec (traced env) c t) = exec env c (erase t) ∧
  calls (exec (traced env) c t) = calls t ++ trace env [c] (erase t).
Proof.
  destruct c as [k a|k a].
  - rewrite trace_acquire, !exec_acquire. unfold erase, calls. simpl.
    by destruct (GetPrimitiveArrayCritical env a NULL (world t).1).
  - by rewrite trace_release, !exec_release.
Qed.

Lemma traced_run cs t :
  erase (run (traced env) cs t) = run env cs (erase t) ∧
  calls (run (traced env) cs t) = calls t ++ trace env cs (erase t).
Proof.
  revert t. induction cs as [|c cs IH]; intros t.
  - split; [done|]. unfold trace. simpl. by rewrite app_nil_r.
  - destruct (traced_exec c t) as [He Hc].
    destruct (IH (exec (traced env) c t)) as [IHe IHc].
    simpl. rewrite IHe, IHc, He, Hc. split; [done|].
    unfold trace at 3. simpl.
    destruct (IH (exec (traced env) c (instrument (erase t)))) as [_ ->].
    destruct (traced_exec c (instrument (erase t))) as [-> ->].
    rewrite erase_instrument. by rewrite <- app_assoc.
Qed.

Lemma trace_app cs1 cs2 s :
  trace env (cs1 ++ cs2) s = trace env cs1 s ++ trace env cs2 (run env cs1 s).
Proof.
  unfold trace at 1. rewrite run_app.
  destruct (traced_run cs2 (run (traced env) cs1 (instrument s))) as [_ ->].
  destruct (traced_run cs1 (instrument s)) as [-> _].
  by rewrite erase_instrument.
Qed.

Lemma trace_cons c cs s :
  trace env (c :: cs) s = trace env [c] s ++ trace env cs (exec env c s).
Proof. apply (trace_app [c] cs s). Qed.

(** A run of releases obtains no pointer, and hands the unpin primitive
    the pointer in the slot each time. *)
Lemma trace_releases rs s :
  forallb is_release rs = true →
  obtained (trace env rs s) = [] ∧
  released (trace env rs s) = replicate (length rs) (sink s).
Proof.
  revert s. induction rs as [|[k a|k a] rs IH]; intros s Hrs; simpl in *.
  - done.
  - discriminate.
  - rewrite trace_cons, trace_release.
    destruct (IH (exec env (Release k a) s) Hrs) as [IHo IHr].
    change (obtained ([ReleaseCritical a (sink s) 0] ++ ?l)) with (obtained l).
    change (released ([ReleaseCritical a (sink s) 0] ++ ?l))
      with (sink s :: released l).
    by rewrite IHo, IHr.
Qed.
End observation_facts.

(** A pointer that is neither in the slot nor obtained again is never
    handed to the unpin primitive. *)
Lemma slot_not_released {W} (env : JNINativeInterface_ W) cs
    (s : process W) (p : address) :
  sink s ≠ p →
  p ∉ obtained (trace env cs s) →
  (p ∉ released (trace env cs s)) ∧ (sink (run env cs s) ≠ p).
Proof.
  revert s. induction cs as [|[k a|k a] cs IH]; intros s Hs Ho.
  - split; [|done]. unfold trace, released. simpl. apply not_elem_of_nil.
  - rewrite trace_cons, trace_acquire in Ho |- *.
    change (obtained ([GetCritical a NULL ?q] ++ ?l))
      with (q :: obtained l) in Ho.
    change (released ([GetCritical a NULL ?q] ++ ?l)) with (released l).
    apply not_elem_of_cons in Ho as [Hq Ho]. simpl.
    apply IH; [congruence | done].
  - rewrite trace_cons, trace_release in Ho |- *.
    change (obtained ([ReleaseCritical a ?q 0] ++ ?l)) with (obtained l) in Ho.
    change (released ([ReleaseCritical a ?q 0] ++ ?l))
      with (q :: released l).
    destruct (IH (exec env (Release k a) s) Hs Ho) as [IHr IHs].
    split; [|done]. apply not_elem_of_cons. split; [congruence | done].
Qed.

Lemma acquire_eq {W} (env : JNINativeInterface_ W)
    (klass : jclass) (arr : jbyteArray) (s : process W) :
  acquire env klass arr s =
    (tt, {| sink := (GetPrimitiveArrayCritical env arr NULL (world s)).1;
            world := (GetPrimitiveArrayCritical env arr NULL (world s)).2 |}).
Proof.
  pose proof (exec_acquire env klass arr s) as H.
  unfold exec, invoke in H. rewrite <- H.
  by destruct (acquire env klass arr s) as [[] ?].
Qed.

(** C4. For every array handle, [acquire] calls the runtime's pin primitive
    once, for that array and with a null [isCopy], and writes the pointer it
    gets into the slot [sink]; it returns no value and the slot is the only
    state of the shim it changes.  On the reference runtime the pointer is
    the address of the backing storage of a valid array. *)
Theorem acquire_stores_pointer {W} (env : JNINativeInterface_ W)
    (klass : jclass) (arr : jbyteArray) (s : process W) :
  acquire env klass arr s =
    (tt, {| sink := (GetPrimitiveArrayCritical env arr NULL (world s)).1;
            world := (GetPrimitiveArrayCritical env arr NULL (world s)).2 |})
  ∧ trace env [Acquire klass arr] s =
      [GetCritical arr NULL (sink (acquire env klass arr s).2)]
  ∧ ∀ j : process JVM,
      sink (acquire direct_env klass arr j).2 =
      match arrays (world j) !! arr with
      | Some o => base o
      | None => NULL
      end.
Proof.
  split_and!.
  - apply acquire_eq.
  - apply trace_acquire.
  - intros j. change ((acquire direct_env klass arr j).2)
      with (exec direct_env (Acquire klass arr) j).
    rewrite exec_acquire. simpl. unfold get_critical.
    by destruct (arrays (world j) !! arr).
Qed.

(** C9. The class token is ignored by both entry points: two calls that
    differ only in [klass] return the same, leave the same process state,
    and make the same JNI calls with the same arguments. *)
Theorem klass_is_ignored {W} (env : JNINativeInterface_ W)
    (k1 k2 : jclass) (arr : jbyteArray) (s : process W) :
  acquire env k1 arr s = acquire env k2 arr s
  ∧ release env k1 arr s = release env k2 arr s
  ∧ trace env [Acquire k1 arr] s = trace env [Acquire k2 arr] s
  ∧ trace env [Release k1 arr] s = trace env [Release k2 arr] s.
Proof. by rewrite !trace_acquire, !trace_release, !exec_acquire. Qed.

(** C10. Before the first call of [acquire] the slot holds the null
    pointer: [sink] is zero-initialised and calls of [release], the only
    other entry point, leave it null.  With a freshly booted runtime the
    shim starts in the Unpinned state. *)
Theorem sink_starts_null {W} (env : JNINativeInterface_ W) (w : W)
    (rs : list invocation) :
  forallb is_release rs = true →
  sink (initial w) = NULL
  ∧ sink (run env rs (initial w)) = NULL
  ∧ ∀ arrs mem, shim_state (initial (boot arrs mem)) = Unpinned.
Proof.
  intros Hrs. split_and!; [done | | done].
  by rewrite run_releases_sink.
Qed.


(** ** Release without a prior acquire *)

(** C3, as stated, fails: called before any [acquire], [release] does go on
    to the unpin primitive, with the null pointer of the untouched slot, and
    returns like any other call. *)
Lemma release_before_acquire_counterexample :
  released (trace direct_env [Release 0 1] demo) = [NULL]
  ∧ release direct_env 0 1 demo
    = (tt, {| sink := NULL;
              world := release_critical 1 NULL 0 demo_jvm |}).
Proof. split; reflexivity. Qed.

(** C3, amended. Called before any [acquire], [release] reports nothing: it
    returns no value, leaves the slot null and calls the unpin primitive
    with the null pointer.  The reference runtime, freshly booted, records
    that call as a breach of the JNI contract. *)
Theorem release_before_acquire_unpins_null {W}
    (env : JNINativeInterface_ W) (w : W) (rs : list invocation)
    (klass : jclass) (arr : jbyteArray) :
  forallb is_release rs = true →
  let s := run env rs (initial w) in
  release env klass arr s =
    (tt, {| sink := NULL;
            world := ReleasePrimitiveArrayCritical env arr NULL 0 (world s) |})
  ∧ trace env [Release klass arr] s = [ReleaseCritical arr NULL 0]
  ∧ ∀ arrs mem,
      fault (world (exec direct_env (Release klass arr)
                      (initial (boot arrs mem)))) = true.
Proof.
  intros Hrs s.
  assert (sink s = NULL) as Hs by (by apply run_releases_sink).
  split_and!.
  - unfold release, mbind, native_bind, bind, load_sink,
      call_ReleasePrimitiveArrayCritical. by rewrite Hs.
  - by rewrite trace_release, Hs.
  - intros arrs mem. rewrite exec_release. simpl. unfold release_critical.
    simpl. destruct (arrs !! arr) as [o|]; [|done].
    case_decide as H; [|done]. destruct H as [_ H]. by apply elem_of_nil in H.
Qed.

(** ** Failure of the pin *)

(** C5, as stated, fails: with the invalid handle [2] the pin primitive
    returns null; [acquire] returns exactly what it returns on success, and
    the null pointer is stored in the slot, where it replaces the pointer of
    the pin made just before. *)
Lemma acquire_failure_counterexample :
  let s1 := exec direct_env (Acquire 0 1) demo in
  sink s1 = 4096
  ∧ (GetPrimitiveArrayCritical direct_env 2 NULL (world s1)).1 = NULL
  ∧ (acquire direct_env 0 2 s1).1 = (acquire direct_env 0 1 s1).1
  ∧ sink (acquire direct_env 0 2 s1).2 = NULL
  ∧ critical (world (acquire direct_env 0 2 s1).2) = [4096].
Proof. repeat split; reflexivity. Qed.

(** C5, amended. When the pin primitive returns the null pointer, [acquire]
    signals nothing to its caller: it returns no value and stores the null
    pointer in the slot. *)
Theorem acquire_stores_null_on_failure {W} (env : JNINativeInterface_ W)
    (klass : jclass) (arr : jbyteArray) (s : process W) :
  (GetPrimitiveArrayCritical env arr NULL (world s)).1 = NULL →
  acquire env klass arr s =
    (tt, {| sink := NULL;
            world := (GetPrimitiveArrayCritical env arr NULL (world s)).2 |}).
Proof.
  intros Hnull.
  rewrite acquire_eq. by rewrite Hnull.
Qed.

(** ** The reference runtime *)

Section runtime_facts.
Implicit Types (j : JVM) (s : process JVM) (o : array_object).
Implicit Types (p q : address) (l : list address).

Lemma remove_first_head p l : remove_first p (p :: l) = l.
Proof. simpl. by rewrite decide_True. Qed.

Lemma elem_of_remove_first_ne p q l :
  p ≠ q → p ∈ l → p ∈ remove_first q l.
Proof.
  intros Hne. induction l as [|x l IH]; intros Hin; simpl.
  - done.
  - case_decide as Hq.
    + subst x. apply elem_of_cons in Hin as [?|?]; [congruence | done].
    + apply elem_of_cons in Hin as [->|Hin]; [left | right; auto].
Qed.

(** A pin of a valid array: its base address, one more outstanding pin,
    nothing else touched. *)
Lemma get_critical_valid arr o j :
  arrays j !! arr = Some o →
  get_critical arr NULL j =
    (base o, {| arrays := arrays j; memory := memory j;
                critical := base o :: critical j; fault := fault j |}).
Proof. intros Ho. unfold get_critical. by rewrite Ho, decide_True. Qed.

(** The matching unpin ends one pin of that pointer. *)
Lemma release_critical_matching arr o mode j :
  arrays j !! arr = Some o →
  base o ∈ critical j →
  release_critical arr (base o) mode j =
    {| arrays := arrays j; memory := memory j;
       critical := remove_first (base o) (critical j); fault := fault j |}.
Proof. intros Ho Hin. unfold release_critical. by rewrite Ho, decide_True. Qed.

(** Neither primitive ends a pin of a pointer other than the one it is
    given. *)
Lemma release_critical_keeps arr q mode j p :
  p ≠ q → p ∈ critical j → p ∈ critical (release_critical arr q mode j).
Proof.
  intros Hne Hin. unfold release_critical.
  destruct (arrays j !! arr) as [o|]; [|done].
  case_decide; [|done]. simpl. by apply elem_of_remove_first_ne.
Qed.

Lemma get_critical_keeps arr isCopy j p :
  p ∈ critical j → p ∈ critical (get_critical arr isCopy j).2.
Proof.
  intros Hin. unfold get_critical.
  destruct (arrays j !! arr) as [o|]; [|done]. simpl. by right.
Qed.

Lemma length_read_bytes mem a n : length (read_bytes mem a n) = n.
Proof. unfold read_bytes. by rewrite length_fmap, length_seq. Qed.

Lemma read_bytes_lookup mem a n (i : nat) :
  (i < n)%nat → read_bytes mem a n !! i = Some (mem !!! (a + Z.of_nat i)).
Proof.
  intros Hi. unfold read_bytes.
  by rewrite list_lookup_fmap, lookup_seq_lt.
Qed.

(** A store inside a range of memory is an update of the bytes read from
    it. *)
Lemma read_bytes_insert mem a n (i : nat) (b : byte) :
  read_bytes (<[a + Z.of_nat i := b]> mem) a n = <[i := b]> (read_bytes mem a n).
Proof.
  apply list_eq. intros k.
  destruct (decide (k < n)%nat) as [Hk|Hk].
  - rewrite read_bytes_lookup by done.
    destruct (decide (i = k)) as [->|Hik].
    + rewrite list_lookup_insert_eq by (by rewrite length_read_bytes).
      by rewrite lookup_total_insert_eq.
    + rewrite list_lookup_insert_ne by done.
      rewrite read_bytes_lookup by done.
      by rewrite lookup_total_insert_ne by lia.
  - rewrite !lookup_ge_None_2; [done | |].
    + rewrite length_insert, length_read_bytes. lia.
    + rewrite length_read_bytes. lia.
Qed.
End runtime_facts.

(** One acquire of a valid array and its release, on the reference
    runtime. *)
Lemma exec_acquire_valid (s : process JVM) klass arr o :
  arrays (world s) !! arr = Some o →
  exec direct_env (Acquire klass arr) s =
    {| sink := base o;
       world := {| arrays := arrays (world s); memory := memory (world s);
                   critical := base o :: critical (world s);
                   fault := fault (world s) |} |}.
Proof.
  intros Ho. rewrite exec_acquire. simpl.
  by rewrite (get_critical_valid arr o).
Qed.

Lemma acquire_release_world (s : process JVM) k k' arr o :
  arrays (world s) !! arr = Some o →
  run direct_env [Acquire k arr; Release k' arr] s =
    {| sink := base o; world := world s |}.
Proof.
  intros Ho. simpl. rewrite (exec_acquire_valid s k arr o Ho), exec_release.
  cbn [sink world].
  rewrite (release_critical_matching arr o) by (done || by left).
  cbn [arrays memory critical fault].
  rewrite remove_first_head. by destruct s as [? []].
Qed.

(** C1. For every valid array handle [H], starting from the Unpinned state,
    [acquire(H)] pins and the [release(H)] that follows brings the shim
    back to Unpinned; the contents of [H] are what they were, and so is the
    whole runtime state.  The slot keeps the pointer it was given. *)
Theorem acquire_release_roundtrip (s : process JVM) (k k' : jclass)
    (H : jbyteArray) (o : array_object) :
  arrays (world s) !! H = Some o →
  shim_state s = Unpinned →
  let s1 := exec direct_env (Acquire k H) s in
  let s2 := exec direct_env (Release k' H) s1 in
  shim_state s1 = Pinned
  ∧ shim_state s2 = Unpinned
  ∧ array_contents (world s2) H = array_contents (world s) H
  ∧ world s2 = world s
  ∧ sink s2 = base o.
Proof.
  intros Ho Hs s1 s2.
  assert (s2 = {| sink := base o; world := world s |}) as ->
    by apply (acquire_release_world s k k' H o Ho).
  subst s1. rewrite (exec_acquire_valid s k H o Ho). done.
Qed.

(** Stores through the slot's pointer change memory only, and change the
    bytes read at that pointer like updates of a list. *)
Lemma writes_through_sink_frame (ws : list (nat * byte)) (s : process JVM) :
  sink (writes_through_sink ws s) = sink s
  ∧ arrays (world (writes_through_sink ws s)) = arrays (world s)
  ∧ critical (world (writes_through_sink ws s)) = critical (world s)
  ∧ fault (world (writes_through_sink ws s)) = fault (world s).
Proof.
  revert s. induction ws as [|w ws IH]; intros s; [done|].
  unfold writes_through_sink in *. simpl.
  by destruct (IH (write_through_sink (Z.of_nat w.1) w.2 s))
    as (-> & -> & -> & ->).
Qed.

Lemma writes_through_sink_read (ws : list (nat * byte)) (s : process JVM)
    (n : nat) :
  read_bytes (memory (world (writes_through_sink ws s))) (sink s) n =
  foldl (λ bs w, <[w.1 := w.2]> bs)
        (read_bytes (memory (world s)) (sink s) n) ws.
Proof.
  revert s. induction ws as [|w ws IH]; intros s; [done|].
  unfold writes_through_sink in *. simpl.
  rewrite <- read_bytes_insert.
  apply (IH (write_through_sink (Z.of_nat w.1) w.2 s)).
Qed.

(** C7. With [H] a valid handle of a 16-byte array holding [pattern]:
    after [acquire(H)] the 16 bytes at the pointer in the slot are the
    pattern.  The pointer aliases the storage: a byte stored at offset 0
    through it is the first byte of the array at once, while the pin is
    still outstanding.  [release(H)] then ends the pin and leaves the stored
    byte in place: the array holds the new byte followed by the rest of the
    pattern, and the runtime differs from the one before [acquire] in that
    byte only.  The same goes for any series of stores through the pointer:
    after [release(H)] the array holds the pattern with those stores made,
    the pin is ended and no breach is recorded. *)
Theorem pinned_pointer_aliases_storage (s : process JVM) (k k' : jclass)
    (H : jbyteArray) (o : array_object) (pattern : list byte) (b : byte) :
  arrays (world s) !! H = Some o →
  count o = 16%nat →
  array_contents (world s) H = Some pattern →
  let s1 := exec direct_env (Acquire k H) s in
  let s2 := write_through_sink 0 b s1 in
  let s3 := exec direct_env (Release k' H) s2 in
  read_bytes (memory (world s1)) (sink s1) 16 = pattern
  ∧ array_contents (world s3) H = Some (b :: drop 1 pattern)
  ∧ fault (world s3) = fault (world s)
  ∧ array_contents (world s2) H = Some (b :: drop 1 pattern)
  ∧ critical (world s2) = base o :: critical (world s)
  ∧ world s3 = poke (base o) 0 b (world s)
  ∧ ∀ ws : list (nat * byte),
      let t := exec direct_env (Release k' H) (writes_through_sink ws s1) in
      array_contents (world t) H =
        Some (foldl (λ bs w, <[w.1 := w.2]> bs) pattern ws)
      ∧ critical (world t) = critical (world s)
      ∧ fault (world t) = fault (world s).
Proof.
  intros Ho Hn Hpat s1 s2 s3.
  unfold array_contents in Hpat. rewrite Ho in Hpat. simpl in Hpat.
  rewrite Hn in Hpat. injection Hpat as Hpat.
  assert (length pattern = 16%nat) as Hlen
    by (by rewrite <- Hpat, length_read_bytes).
  assert (<[0%nat := b]> pattern = b :: drop 1 pattern) as Hins
    by (by destruct pattern).
  assert (sink s1 = base o
          ∧ arrays (world s1) = arrays (world s)
          ∧ memory (world s1) = memory (world s)
          ∧ critical (world s1) = base o :: critical (world s)
          ∧ fault (world s1) = fault (world s)) as (E1 & E2 & E3 & E4 & E5).
  { subst s1. by rewrite (exec_acquire_valid s k H o Ho). }
  clearbody s1.
  assert (∀ t : process JVM,
            sink t = base o →
            arrays (world t) = arrays (world s) →
            critical (world t) = base o :: critical (world s) →
            world (exec direct_env (Release k' H) t) =
              {| arrays := arrays (world s); memory := memory (world t);
                 critical := critical (world s); fault := fault (world t) |})
    as Hrel.
  { intros t Ht Ha Hc. rewrite exec_release, Ht. cbn [world].
    change (ReleasePrimitiveArrayCritical direct_env) with release_critical.
    rewrite (release_critical_matching H o);
      [| by rewrite Ha | rewrite Hc; by left].
    by rewrite Ha, Hc, remove_first_head. }
  assert (world s3 = poke (base o) 0 b (world s)) as Hw3.
  { subst s3. rewrite Hrel; subst s2; unfold write_through_sink, poke;
      cbn [sink world arrays memory critical fault]; [|done..].
    by rewrite E1, E3, E5. }
  assert (∀ j, arrays j = arrays (world s) →
               memory j = <[base o + Z.of_nat 0 := b]> (memory (world s)) →
               array_contents j H = Some (b :: drop 1 pattern)) as Hread.
  { intros j Ha Hm. unfold array_contents. rewrite Ha, Ho. simpl.
    by rewrite Hn, Hm, read_bytes_insert, Hpat, Hins. }
  split_and!.
  - by rewrite E1, E3.
  - apply Hread; by rewrite Hw3.
  - by rewrite Hw3.
  - subst s2. apply Hread; unfold write_through_sink, poke;
      cbn [sink world arrays memory]; [done | by rewrite E1, E3].
  - by subst s2.
  - done.
  - intros ws t.
    destruct (writes_through_sink_frame ws s1) as (Hsink & Harr & Hcrit & Hf).
    pose proof (writes_through_sink_read ws s1 16) as Hrd.
    rewrite E1, E3, Hpat in Hrd.
    subst t. rewrite Hrel; [| congruence..].
    cbn [arrays memory critical fault]. split_and!; [| done | congruence].
    unfold array_contents. cbn [arrays memory]. rewrite Ho. simpl.
    by rewrite Hn, Hrd.
Qed.

(** A pin whose pointer is neither in the slot nor obtained again stays
    outstanding, whatever the shim is asked to do. *)
Lemma pin_survives cs (s : process JVM) (p : address) :
  sink s ≠ p →
  p ∉ obtained (trace direct_env cs s) →
  p ∈ critical (world s) →
  p ∈ critical (world (run direct_env cs s)).
Proof.
  revert s. induction cs as [|[k a|k a] cs IH]; intros s Hs Ho Hin.
  - done.
  - rewrite trace_cons, trace_acquire in Ho.
    change (obtained ([GetCritical a NULL ?q] ++ ?l))
      with (q :: obtained l) in Ho.
    apply not_elem_of_cons in Ho as [Hq Ho]. simpl.
    apply IH; [congruence | done |].
    rewrite exec_acquire. by apply get_critical_keeps.
  - rewrite trace_cons, trace_release in Ho.
    change (obtained ([ReleaseCritical a ?q 0] ++ ?l)) with (obtained l) in Ho.
    simpl. apply IH; [done | done |].
    rewrite exec_release. apply release_critical_keeps; [congruence | done].
Qed.

(** C6, as stated, fails: the pointer of the prior pin can be released
    through the slot again.  With the array behind handle [1] pinned and its
    pointer [4096] in the slot, [acquire] of handle [3] overwrites the slot
    with [8192]; a later [acquire] of handle [1] brings [4096] back, and two
    releases then hand it to the unpin primitive twice, within the JNI
    contract: both pins of [4096] are ended, the prior one included, and the
    pin of [8192] is the one left. *)
Lemma acquire_while_pinned_counterexample :
  let s := exec direct_env (Acquire 0 1) demo in
  let s1 := exec direct_env (Acquire 0 3) s in
  let cs := [Acquire 0 1; Release 0 1; Release 0 1] in
  slot_pinned s
  ∧ sink s = 4096
  ∧ sink s1 = 8192
  ∧ critical (world s1) = [8192; 4096]
  ∧ released (trace direct_env cs s1) = [4096; 4096]
  ∧ critical (world (run direct_env cs s1)) = [8192]
  ∧ fault (world (run direct_env cs s1)) = false.
Proof. split; [compute_done | repeat split]. Qed.

(** C6, amended. When [acquire] is called while the slot holds a pinned
    pointer, the shim being Pinned, the slot is overwritten with the pointer
    the pin primitive returns.  When that pointer differs from the previous
    one, the previous one is orphaned for as long as no later pin returns it
    again: until then no call passes it to the unpin primitive and its pin
    stays outstanding. *)
Theorem acquire_while_pinned_orphans (s : process JVM) (klass : jclass)
    (arr : jbyteArray) (cs : list invocation) :
  slot_pinned s →
  let s1 := exec direct_env (Acquire klass arr) s in
  shim_state s = Pinned
  ∧ sink s1 = (GetPrimitiveArrayCritical direct_env arr NULL (world s)).1
  ∧ (sink s1 ≠ sink s →
     sink s ∉ obtained (trace direct_env cs s1) →
     (sink s ∉ released (trace direct_env cs s1))
     ∧ (sink s ∈ critical (world (run direct_env cs s1)))).
Proof.
  intros [Hnn Hin] s1. split_and!.
  - unfold shim_state. destruct (critical (world s)); [|done].
    by apply elem_of_nil in Hin.
  - subst s1. by rewrite exec_acquire.
  - intros Hne Hobt. split.
    + by apply slot_not_released.
    + apply pin_survives; [done | done |].
      subst s1. rewrite exec_acquire. by apply get_critical_keeps.
Qed.

(** ** The slot after a release *)

(** C8, as stated, fails: after two acquires of the array behind handle [1]
    and one release, all within the JNI contract, the slot still holds a
    pointer that is pinned. *)
Lemma release_keeps_slot_counterexample :
  let s := run direct_env [Acquire 0 1; Acquire 0 1; Release 0 1] demo in
  slot_pinned s ∧ sink s = 4096 ∧ critical (world s) = [4096]
  ∧ fault (world s) = false.
Proof. split; [compute_done | repeat split]. Qed.

(** C8, amended. The slot is set by [acquire] and read by [release], which
    hands its value to the unpin primitive and does not write it: after an
    [acquire] of a valid handle from the Unpinned state and its [release],
    the slot still holds the pointer obtained, which is no longer pinned. *)
Theorem release_keeps_slot (s : process JVM) (k k' : jclass)
    (H : jbyteArray) (o : array_object) :
  arrays (world s) !! H = Some o →
  shim_state s = Unpinned →
  let s1 := exec direct_env (Acquire k H) s in
  let s2 := exec direct_env (Release k' H) s1 in
  sink s1 = base o
  ∧ trace direct_env [Release k' H] s1 = [ReleaseCritical H (base o) 0]
  ∧ sink s2 = base o
  ∧ ¬ slot_pinned s2
  ∧ ∀ W (env : JNINativeInterface_ W) klass arr (t : process W),
      sink (exec env (Release klass arr) t) = sink t.
Proof.
  intros Ho Hs s1 s2.
  assert (s2 = {| sink := base o; world := world s |}) as ->
    by apply (acquire_release_world s k k' H o Ho).
  subst s1. rewrite trace_release, (exec_acquire_valid s k H o Ho).
  split_and!; try done.
  intros [_ Hin]. unfold shim_state in Hs. simpl in Hin.
  destruct (critical (world s)); [|done]. by apply elem_of_nil in Hin.
Qed.

(** ** The statements at concrete processes *)

Lemma sink_starts_null_witness :
  forallb is_release [Release 0 1; Release 0 2] = true
  ∧ (sink (initial demo_jvm) = NULL
     ∧ sink (run direct_env [Release 0 1; Release 0 2] (initial demo_jvm))
       = NULL
     ∧ ∀ arrs mem, shim_state (initial (boot arrs mem)) = Unpinned).
Proof.
  split; [reflexivity|].
  apply (sink_starts_null direct_env demo_jvm [Release 0 1; Release 0 2]).
  reflexivity.
Defined.


Lemma release_before_acquire_unpins_null_witness :
  forallb is_release [Release 0 3] = true
  ∧ let s := run direct_env [Release 0 3] (initial demo_jvm) in
    release direct_env 0 1 s =
      (tt, {| sink := NULL;
              world := ReleasePrimitiveArrayCritical direct_env 1 NULL 0
                         (world s) |})
    ∧ trace direct_env [Release 0 1] s = [ReleaseCritical 1 NULL 0]
    ∧ ∀ arrs mem,
        fault (world (exec direct_env (Release 0 1)
                        (initial (boot arrs mem)))) = true.
Proof.
  split; [reflexivity|].
  apply (release_before_acquire_unpins_null direct_env demo_jvm
           [Release 0 3] 0 1).
  reflexivity.
Defined.

Lemma acquire_stores_null_on_failure_witness :
  (GetPrimitiveArrayCritical direct_env 2 NULL (world demo)).1 = NULL
  ∧ acquire direct_env 0 2 demo =
      (tt, {| sink := NULL;
              world := (GetPrimitiveArrayCritical direct_env 2 NULL
                          (world demo)).2 |}).
Proof.
  split; [reflexivity|].
  apply (acquire_stores_null_on_failure direct_env 0 2 demo).
  reflexivity.
Defined.

Lemma acquire_release_roundtrip_witness :
  arrays (world demo) !! 1 = Some {| base := 4096; count := 16 |}
  ∧ shim_state demo = Unpinned
  ∧ let s1 := exec direct_env (Acquire 0 1) demo in
    let s2 := exec direct_env (Release 0 1) s1 in
    shim_state s1 = Pinned
    ∧ shim_state s2 = Unpinned
    ∧ array_contents (world s2) 1 = array_contents (world demo) 1
    ∧ world s2 = world demo
    ∧ sink s2 = base {| base := 4096; count := 16 |}.
Proof.
  split; [reflexivity|]. split; [reflexivity|].
  apply (acquire_release_roundtrip demo 0 0 1 {| base := 4096; count := 16 |});
    reflexivity.
Defined.

Lemma pinned_pointer_aliases_storage_witness :
  arrays (world demo) !! 1 = Some {| base := 4096; count := 16 |}
  ∧ count {| base := 4096; count := 16 |} = 16%nat
  ∧ array_contents (world demo) 1 = Some pattern16
  ∧ let s1 := exec direct_env (Acquire 0 1) demo in
    let s2 := write_through_sink 0 xff s1 in
    let s3 := exec direct_env (Release 0 1) s2 in
    read_bytes (memory (world s1)) (sink s1) 16 = pattern16
    ∧ array_contents (world s3) 1 = Some (xff :: drop 1 pattern16)
    ∧ fault (world s3) = fault (world demo)
    ∧ array_contents (world s2) 1 = Some (xff :: drop 1 pattern16)
    ∧ critical (world s2)
      = base {| base := 4096; count := 16 |} :: critical (world demo)
    ∧ world s3
      = poke (base {| base := 4096; count := 16 |}) 0 xff (world demo)
    ∧ ∀ ws : list (nat * byte),
        let t := exec direct_env (Release 0 1) (writes_through_sink ws s1) in
        array_contents (world t) 1 =
          Some (foldl (λ bs w, <[w.1 := w.2]> bs) pattern16 ws)
        ∧ critical (world t) = critical (world demo)
        ∧ fault (world t) = fault (world demo).
Proof.
  split; [reflexivity|]. split; [reflexivity|]. split; [reflexivity|].
  apply (pinned_pointer_aliases_storage demo 0 0 1
           {| base := 4096; count := 16 |} pattern16 xff); reflexivity.
Defined.

Lemma acquire_while_pinned_orphans_witness :
  let s := exec direct_env (Acquire 0 1) demo in
  let cs := [Release 0 3; Acquire 0 3; Release 0 3; Release 0 1] in
  let s1 := exec direct_env (Acquire 0 3) s in
  slot_pinned s
  ∧ sink s1 ≠ sink s
  ∧ (sink s ∉ obtained (trace direct_env cs s1))
  ∧ shim_state s = Pinned
  ∧ sink s1 = 8192
  ∧ (sink s ∉ released (trace direct_env cs s1))
  ∧ (sink s ∈ critical (world (run direct_env cs s1))).
Proof.
  intros s cs s1.
  assert (slot_pinned s) as Hp by compute_done.
  assert (sink s1 ≠ sink s) as Hne by done.
  assert (sink s ∉ obtained (trace direct_env cs s1)) as Hobt
    by compute_done.
  destruct (acquire_while_pinned_orphans s 0 3 cs Hp)
    as (Hst & Hsink & Horph).
  destruct (Horph Hne Hobt) as [Hrel Hin].
  exact (conj Hp (conj Hne (conj Hobt
           (conj Hst (conj Hsink (conj Hrel Hin)))))).
Defined.

Lemma release_keeps_slot_witness :
  arrays (world demo) !! 3 = Some {| base := 8192; count := 4 |}
  ∧ shim_state demo = Unpinned
  ∧ let s1 := exec direct_env (Acquire 0 3) demo in
    let s2 := exec direct_env (Release 0 3) s1 in
    sink s1 = base {| base := 8192; count := 4 |}
    ∧ trace direct_env [Release 0 3] s1 =
        [ReleaseCritical 3 (base {| base := 8192; count := 4 |}) 0]
    ∧ sink s2 = base {| base := 8192; count := 4 |}
    ∧ ¬ slot_pinned s2
    ∧ ∀ W (env : JNINativeInterface_ W) klass arr (t : process W),
        sink (exec env (Release klass arr) t) = sink t.
Proof.
  split; [reflexivity|]. split; [reflexivity|].
  apply (release_keeps_slot demo 0 0 3 {| base := 8192; count := 4 |});
    reflexivity.
Defined.

(** * Further properties of the two entry points *)

(** ** For every runtime *)

Lemma obtained_app (l1 l2 : list jni_event) :
  obtained (l1 ++ l2) = obtained l1 ++ obtained l2.
Proof. apply omap_app. Qed.

Lemma released_app (l1 l2 : list jni_event) :
  released (l1 ++ l2) = released l1 ++ released l2.
Proof. apply omap_app. Qed.

Lemma default_last_cons (x p : address) (l : list address) :
  default x (last (p :: l)) = default p (last l).
Proof.
  revert x p. induction l as [|q l IH]; intros x p; [done|].
  change (last (p :: q :: l)) with (last (q :: l)).
  by rewrite (IH x q), (IH p q).
Qed.

(** X1. Each invocation makes exactly one JNI call, in the order of the
    invocations: an [acquire] the pin of its own array with a null
    [isCopy], a [release] the unpin of its own array with mode [0]. *)
Theorem one_call_per_invocation {W} (env : JNINativeInterface_ W)
    (cs : list invocation) (s : process W) :
  Forall2 serves cs (trace env cs s).
Proof.
  revert s. induction cs as [|[k a|k a] cs IH]; intros s.
  - constructor.
  - rewrite trace_cons, trace_acquire. constructor; [done | apply IH].
  - rewrite trace_cons, trace_release. constructor; [done | apply IH].
Qed.

(** X2. At any point the slot holds the pointer that the most recent pin
    returned, or what it held at the start when no pin has been made. *)
Theorem sink_is_last_obtained {W} (env : JNINativeInterface_ W)
    (cs : list invocation) (s : process W) :
  sink (run env cs s) = default (sink s) (last (obtained (trace env cs s))).
Proof.
  revert s. induction cs as [|[k a|k a] cs IH]; intros s.
  - done.
  - rewrite trace_cons, trace_acquire, obtained_app. simpl run. rewrite IH.
    change (obtained [GetCritical a NULL ?p] ++ ?l) with (p :: l).
    by rewrite default_last_cons.
  - rewrite trace_cons, trace_release, obtained_app. simpl run. by rewrite IH.
Qed.

(** X3. Whatever the sequence of invocations, the pointer handed to the
    unpin primitive by a call is the one the most recent pin before that
    call returned, or the starting content of the slot when there was no
    pin before it.  The shim makes up no pointer of its own. *)
Theorem released_is_last_obtained {W} (env : JNINativeInterface_ W)
    (cs : list invocation) (s : process W)
    (tr1 tr2 : list jni_event) (arr : jbyteArray) (p : address) (mode : jint) :
  trace env cs s = tr1 ++ ReleaseCritical arr p mode :: tr2 →
  p = default (sink s) (last (obtained tr1)).
Proof.
  revert s tr1. induction cs as [|c cs IH]; intros s tr1 Htr.
  - by destruct tr1.
  - rewrite trace_cons in Htr. destruct tr1 as [|e tr1].
    + destruct c as [k a|k a].
      * by rewrite trace_acquire in Htr.
      * rewrite trace_release in Htr. by injection Htr as _ -> _.
    + destruct c as [k a|k a].
      * rewrite trace_acquire in Htr. injection Htr as <- Htr.
        rewrite (IH _ _ Htr).
        change (obtained (GetCritical a NULL ?q :: ?l))
          with (q :: obtained l).
        by rewrite default_last_cons.
      * rewrite trace_release in Htr. injection Htr as <- Htr.
        by rewrite (IH _ _ Htr).
Qed.

(** X4. Releases do not use up the slot: [n] releases in a row, whatever
    their arrays, leave the slot as it was, make no pin, and hand the same
    pointer to the unpin primitive [n] times. *)
Theorem releases_repeat_the_pointer {W} (env : JNINativeInterface_ W)
    (rs : list invocation) (s : process W) :
  forallb is_release rs = true →
  sink (run env rs s) = sink s
  ∧ obtained (trace env rs s) = []
  ∧ released (trace env rs s) = replicate (length rs) (sink s).
Proof.
  intros Hrs. split; [by apply run_releases_sink | by apply trace_releases].
Qed.

(** X5. A failed pin is not caught by the [release] that follows either:
    when the pin primitive returns the null pointer, the next [release]
    hands the null pointer to the unpin primitive. *)
Theorem release_after_failed_acquire {W} (env : JNINativeInterface_ W)
    (s : process W) (k k' : jclass) (a b : jbyteArray) :
  (GetPrimitiveArrayCritical env a NULL (world s)).1 = NULL →
  trace env [Acquire k a; Release k' b] s =
    [GetCritical a NULL NULL; ReleaseCritical b NULL 0].
Proof.
  intros Hnull.
  rewrite trace_cons, trace_acquire, trace_release, exec_acquire.
  simpl. by rewrite Hnull.
Qed.

Lemma released_is_last_obtained_witness :
  trace direct_env [Acquire 0 1; Acquire 0 3; Release 0 1; Release 0 3] demo
    = [GetCritical 1 NULL 4096; GetCritical 3 NULL 8192]
        ++ ReleaseCritical 1 8192 0 :: [ReleaseCritical 3 8192 0]
  ∧ 8192 = default (sink demo)
             (last (obtained [GetCritical 1 NULL 4096;
                              GetCritical 3 NULL 8192])).
Proof.
  split; [reflexivity|].
  apply (released_is_last_obtained direct_env
           [Acquire 0 1; Acquire 0 3; Release 0 1; Release 0 3] demo
           [GetCritical 1 NULL 4096; GetCritical 3 NULL 8192]
           [ReleaseCritical 3 8192 0] 1 8192 0).
  reflexivity.
Defined.

Lemma releases_repeat_the_pointer_witness :
  let s := exec direct_env (Acquire 0 1) demo in
  let rs := [Release 0 1; Release 0 3; Release 0 2] in
  forallb is_release rs = true
  ∧ sink (run direct_env rs s) = sink s
  ∧ obtained (trace direct_env rs s) = []
  ∧ released (trace direct_env rs s) = replicate (length rs) (sink s).
Proof.
  intros s rs. split; [reflexivity|].
  apply (releases_repeat_the_pointer direct_env rs s). reflexivity.
Defined.

Lemma release_after_failed_acquire_witness :
  let s := exec direct_env (Acquire 0 1) demo in
  sink s = 4096
  ∧ (GetPrimitiveArrayCritical direct_env 2 NULL (world s)).1 = NULL
  ∧ trace direct_env [Acquire 0 2; Release 0 1] s =
      [GetCritical 2 NULL NULL; ReleaseCritical 1 NULL 0].
Proof.
  intros s. split; [reflexivity|]. split; [reflexivity|].
  apply (release_after_failed_acquire direct_env s 0 0 2 1). reflexivity.
Defined.

(** X6. Under balanced use, whatever the runtime, the JNI calls come in
    pairs: the pin of an array with a null [isCopy], then the unpin of the
    same array with the pointer that pin returned and mode [0]. *)
Theorem balanced_use_pairs_calls {W} (env : JNINativeInterface_ W)
    (klass : jclass) (hs : list jbyteArray) (s : process W) :
  ∃ ps : list address,
    length ps = length hs
    ∧ trace env (cycles klass hs) s =
        zip hs ps ≫= λ hp, [GetCritical hp.1 NULL hp.2;
                             ReleaseCritical hp.1 hp.2 0].
Proof.
  revert s. induction hs as [|h hs IH]; intros s.
  - by exists [].
  - destruct (IH (run env [Acquire klass h; Release klass h] s)) as (ps & Hlen & Htr).
    exists (sink (exec env (Acquire klass h) s) :: ps).
    split; [simpl; by rewrite Hlen|].
    change (cycles klass (h :: hs))
      with ([Acquire klass h; Release klass h] ++ cycles klass hs).
    rewrite trace_app, Htr.
    by rewrite (trace_cons env (Acquire klass h)), trace_acquire, trace_release.
Qed.

(** ** On the reference runtime *)

Lemma exec_keeps_storage (c : invocation) (s : process JVM) :
  arrays (world (exec direct_env c s)) = arrays (world s)
  ∧ memory (world (exec direct_env c s)) = memory (world s).
Proof.
  destruct c as [k a|k a].
  - rewrite exec_acquire. simpl. unfold get_critical.
    by destruct (arrays (world s) !! a).
  - rewrite exec_release. simpl. unfold release_critical.
    destruct (arrays (world s) !! a); [|done]. by case_decide.
Qed.

(** X7. The shim never writes array storage and never changes which arrays
    exist: after any sequence of invocations the memory and the array table
    are what they were, so every array has the contents it had. *)
Theorem shim_never_writes_storage (cs : list invocation) (s : process JVM) :
  arrays (world (run direct_env cs s)) = arrays (world s)
  ∧ memory (world (run direct_env cs s)) = memory (world s)
  ∧ ∀ arr : jbyteArray,
      array_contents (world (run direct_env cs s)) arr =
      array_contents (world s) arr.
Proof.
  assert (arrays (world (run direct_env cs s)) = arrays (world s)
          ∧ memory (world (run direct_env cs s)) = memory (world s))
    as [Ha Hm].
  { revert s. induction cs as [|c cs IH]; intros s; [done|]. simpl.
    destruct (IH (exec direct_env c s)) as [-> ->].
    apply exec_keeps_storage. }
  split_and!; [done | done |].
  intros arr. unfold array_contents. by rewrite Ha, Hm.
Qed.

(** X8. Balanced use does not leak: after one [acquire]/[release] pair for
    each of any number of valid arrays, the runtime is exactly as before, no
    pin left outstanding that was not there and no breach recorded. *)
Theorem balanced_cycles_restore (klass : jclass) (hs : list jbyteArray)
    (s : process JVM) :
  Forall (λ h, is_Some (arrays (world s) !! h)) hs →
  world (run direct_env (cycles klass hs) s) = world s.
Proof.
  revert s. induction hs as [|h hs IH]; intros s Hhs; [done|].
  apply Forall_cons in Hhs as [[o Ho] Hhs].
  change (cycles klass (h :: hs))
    with ([Acquire klass h; Release klass h] ++ cycles klass hs).
  rewrite run_app, (acquire_release_world s klass klass h o Ho).
  by rewrite IH.
Qed.

(** X9. Nothing ties a [release] to the array of the last [acquire]: given
    another handle, valid or not, [release] hands the runtime that handle
    with the pointer of the acquired array.  The runtime records a breach and
    the pin stays outstanding, its pointer still in the slot. *)
Theorem mismatched_release_keeps_pin (s : process JVM) (k k' : jclass)
    (a b : jbyteArray) (oa : array_object) :
  arrays (world s) !! a = Some oa →
  base <$> arrays (world s) !! b ≠ Some (base oa) →
  let s2 := run direct_env [Acquire k a; Release k' b] s in
  trace direct_env [Acquire k a; Release k' b] s =
    [GetCritical a NULL (base oa); ReleaseCritical b (base oa) 0]
  ∧ sink s2 = base oa
  ∧ critical (world s2) = base oa :: critical (world s)
  ∧ fault (world s2) = true.
Proof.
  intros Ha Hb s2. subst s2.
  rewrite trace_cons, trace_acquire, trace_release. simpl run.
  rewrite exec_release, (exec_acquire_valid s k a oa Ha).
  cbn [sink world]. split; [done|]. split; [done|].
  change (ReleasePrimitiveArrayCritical direct_env) with release_critical.
  unfold release_critical. cbn [arrays memory critical fault].
  destruct (arrays (world s) !! b) as [ob|]; [|done].
  case_decide as Hd; [|done].
  destruct Hd as [Hd _]. simpl in Hb. congruence.
Qed.

(** X10. The pointer stays in the slot after its release: a second
    [release] hands the same, now stale, pointer to the unpin primitive
    again.  When the array had no other pin, the runtime records that as a
    breach. *)
Theorem double_release_is_a_breach (s : process JVM) (k : jclass)
    (a : jbyteArray) (o : array_object) :
  arrays (world s) !! a = Some o →
  base o ∉ critical (world s) →
  let cs := [Acquire k a; Release k a; Release k a] in
  released (trace direct_env cs s) = [base o; base o]
  ∧ critical (world (run direct_env cs s)) = critical (world s)
  ∧ fault (world (run direct_env cs s)) = true.
Proof.
  intros Ha Hnin cs. subst cs. split.
  - rewrite trace_cons, trace_acquire.
    rewrite (exec_acquire_valid s k a o Ha). reflexivity.
  - change [Acquire k a; Release k a; Release k a]
      with ([Acquire k a; Release k a] ++ [Release k a]).
    rewrite run_app, (acquire_release_world s k k a o Ha).
    simpl run. rewrite exec_release. cbn [sink world].
    change (ReleasePrimitiveArrayCritical direct_env) with release_critical.
    unfold release_critical. rewrite Ha.
    rewrite decide_False by (by intros [_ ?]). done.
Qed.

Lemma balanced_cycles_restore_witness :
  Forall (λ h, is_Some (arrays (world demo) !! h)) [1; 3; 1]
  ∧ world (run direct_env (cycles 0 [1; 3; 1]) demo) = world demo.
Proof.
  assert (Forall (λ h, is_Some (arrays (world demo) !! h)) [1; 3; 1]) as H
    by (repeat constructor; by eexists).
  exact (conj H (balanced_cycles_restore 0 [1; 3; 1] demo H)).
Defined.

Lemma mismatched_release_keeps_pin_witness :
  arrays (world demo) !! 1 = Some {| base := 4096; count := 16 |}
  ∧ base <$> arrays (world demo) !! 3
    ≠ Some (base {| base := 4096; count := 16 |})
  ∧ let s2 := run direct_env [Acquire 0 1; Release 0 3] demo in
    trace direct_env [Acquire 0 1; Release 0 3] demo =
      [GetCritical 1 NULL (base {| base := 4096; count := 16 |});
       ReleaseCritical 3 (base {| base := 4096; count := 16 |}) 0]
    ∧ sink s2 = base {| base := 4096; count := 16 |}
    ∧ critical (world s2)
      = base {| base := 4096; count := 16 |} :: critical (world demo)
    ∧ fault (world s2) = true.
Proof.
  split; [reflexivity|]. split; [by vm_compute|].
  apply (mismatched_release_keeps_pin demo 0 0 1 3
           {| base := 4096; count := 16 |}); [reflexivity | by vm_compute].
Defined.

Lemma double_release_is_a_breach_witness :
  arrays (world demo) !! 1 = Some {| base := 4096; count := 16 |}
  ∧ (base {| base := 4096; count := 16 |} ∉ critical (world demo))
  ∧ let cs := [Acquire 0 1; Release 0 1; Release 0 1] in
    released (trace direct_env cs demo)
    = [base {| base := 4096; count := 16 |};
       base {| base := 4096; count := 16 |}]
    ∧ critical (world (run direct_env cs demo)) = critical (world demo)
    ∧ fault (world (run direct_env cs demo)) = true.
Proof.
  split; [reflexivity|]. split; [apply not_elem_of_nil|].
  apply (double_release_is_a_breach demo 0 1 {| base := 4096; count := 16 |});
    [reflexivity | apply not_elem_of_nil].
Defined.
